(** * Q1.py: the two-key, four-segment substitution cipher

    A shallow embedding of [src/Q1.py] and the proofs of its specification.

    Data model.
    - A Python [int] is unbounded: [Z].
    - A Python [str] is a sequence of Unicode code points: [pystr := list Z].
      A "character" is a [str] of length one, as in Python; iterating over a
      [str] yields its length-one slices.
    - Built-ins that can raise ([ord], [chr], [open]) return a [result].
    - Python's [%] on integers is floored (the result takes the sign of the
      divisor), which is exactly [Z.modulo]; the only divisor in the program is
      the literal 13.
    - The three files of the program live in a store from file names to the
      text that [f.read()] returns and [f.write()] receives (the UTF-8 codec
      and newline translation sit below this model). *)

From Stdlib Require Import ZArith Lia Ascii.
From stdpp Require Import base option list strings gmap.

Local Open Scope Z_scope.

(** ** Exceptions and results *)

Inductive exn : Type :=
  | TypeError
  | ValueError
  | OverflowError
  | FileNotFoundError.

Inductive result (A : Type) : Type :=
  | Ok (a : A)
  | Raise (e : exn).

Arguments Ok {A} a.
Arguments Raise {A} e.

Global Instance result_ret : MRet result := λ A a, Ok a.

Global Instance result_bind : MBind result := λ A B f r,
  match r with
  | Ok a => f a
  | Raise e => Raise e
  end.

(** ** Python strings and the built-ins used by Q1.py *)

Abbreviation pystr := (list Z).

(** The code point of an ASCII character, and the one-character literal
    (such as ['a']) made of it. *)
Definition cp (a : ascii) : Z := Z.of_N (N_of_ascii a).

Definition lit (a : ascii) : pystr := [cp a].

(** The largest code point, [sys.maxunicode]. *)
Definition maxunicode : Z := 1114111.

(** [ord(s)]: the code point of a string of length one, [TypeError] otherwise. *)
Definition ord (s : pystr) : result Z :=
  match s with
  | [c] => Ok c
  | _ => Raise TypeError
  end.

(** [chr(i)]: [ValueError] outside [range(0x110000)], [OverflowError] when the
    argument does not fit a C int. *)
Definition chr (i : Z) : result pystr :=
  if (i <? - 2147483648) || (2147483647 <? i) then Raise OverflowError
  else if (i <? 0) || (maxunicode <? i) then Raise ValueError
  else Ok [i].

(** [a <= b] on strings: lexicographic on code points, a proper prefix first. *)
Fixpoint str_le (a b : pystr) : bool :=
  match a, b with
  | [], _ => true
  | _ :: _, [] => false
  | x :: a', y :: b' =>
      if x <? y then true
      else if y <? x then false
      else str_le a' b'
  end.

(** ** The four shift functions (Q1.py, lines 9-23) *)

Definition shift_lower_first (c : pystr) (k : Z) : result pystr :=
  oc ← ord c;
  o ← ord (lit "a");
  let idx := (oc - o + (k mod 13)) mod 13 in
  o' ← ord (lit "a");
  chr (o' + idx).

Definition shift_lower_second (c : pystr) (k : Z) : result pystr :=
  oc ← ord c;
  o ← ord (lit "n");
  let idx := (oc - o + (k mod 13)) mod 13 in
  o' ← ord (lit "n");
  chr (o' + idx).

Definition shift_upper_first (c : pystr) (k : Z) : result pystr :=
  oc ← ord c;
  o ← ord (lit "A");
  let idx := (oc - o + (k mod 13)) mod 13 in
  o' ← ord (lit "A");
  chr (o' + idx).

Definition shift_upper_second (c : pystr) (k : Z) : result pystr :=
  oc ← ord c;
  o ← ord (lit "N");
  let idx := (oc - o + (k mod 13)) mod 13 in
  o' ← ord (lit "N");
  chr (o' + idx).

(** ** Per-character dispatch (Q1.py, lines 27-60) *)

Definition encrypt_character (ch : pystr) (shift1 shift2 : Z) : result pystr :=
  let prod := shift1 * shift2 in
  let ssum := shift1 + shift2 in
  if str_le (lit "a") ch && str_le ch (lit "z") then
    if str_le ch (lit "m") then shift_lower_first ch prod
    else shift_lower_second ch (- ssum)
  else if str_le (lit "A") ch && str_le ch (lit "Z") then
    if str_le ch (lit "M") then shift_upper_first ch (- shift1)
    else shift_upper_second ch (shift2 * shift2)
  else Ok ch.

Definition decrypt_character (ch : pystr) (shift1 shift2 : Z) : result pystr :=
  let prod := shift1 * shift2 in
  let ssum := shift1 + shift2 in
  if str_le (lit "a") ch && str_le ch (lit "z") then
    if str_le ch (lit "m") then shift_lower_first ch (- prod)
    else shift_lower_second ch ssum
  else if str_le (lit "A") ch && str_le ch (lit "Z") then
    if str_le ch (lit "M") then shift_upper_first ch shift1
    else shift_upper_second ch (- (shift2 * shift2))
  else Ok ch.

(** ** Whole-text transform and the file layer (Q1.py, lines 4-6 and 63-77) *)

Definition RAW_FILE : string := "raw_text.txt".
Definition ENC_FILE : string := "encrypted_text.txt".
Definition DEC_FILE : string := "decrypted_text.txt".

(** [for c in text]: the length-one slices of [text], in order. *)
Definition chars (text : pystr) : list pystr := map (λ c, [c]) text.

(** [''.join(f(c) for c in items)]: the pieces are produced and concatenated
    left to right; the first exception stops the generator. *)
Fixpoint join_gen (f : pystr → result pystr) (items : list pystr) : result pystr :=
  match items with
  | [] => Ok []
  | c :: rest =>
      piece ← f c;
      tail ← join_gen f rest;
      mret (piece ++ tail)
  end.

Definition encrypt_text (shift1 shift2 : Z) (text : pystr) : result pystr :=
  join_gen (λ c, encrypt_character c shift1 shift2) (chars text).

Definition decrypt_text (shift1 shift2 : Z) (text : pystr) : result pystr :=
  join_gen (λ c, decrypt_character c shift1 shift2) (chars text).

Record world : Type := World {
  files : gmap string pystr;
  stdout : list string
}.

(** [with open(name, "r") as f: text = f.read()]. *)
Definition read_text (name : string) (w : world) : result pystr :=
  match files w !! name with
  | Some text => Ok text
  | None => Raise FileNotFoundError
  end.

(** [with open(name, "w") as f: f.write(text)]: creates or truncates. *)
Definition write_text (name : string) (text : pystr) (w : world) : world :=
  World (<[name := text]> (files w)) (stdout w).

Definition print (line : string) (w : world) : world :=
  World (files w) (stdout w ++ [line]).

Definition encrypt_file (shift1 shift2 : Z) (w : world) : result world :=
  text ← read_text RAW_FILE w;
  enc ← encrypt_text shift1 shift2 text;
  mret (print "Encryption complete. Output written to 'encrypted_text.txt'."
          (write_text ENC_FILE enc w)).

Definition decrypt_file (shift1 shift2 : Z) (w : world) : result world :=
  text ← read_text ENC_FILE w;
  dec ← decrypt_text shift1 shift2 text;
  mret (print "Decryption complete. Output written to 'decrypted_text.txt'."
          (write_text DEC_FILE dec w)).

(** [a == b] on strings: same length and same code points. *)
Fixpoint str_eq (a b : pystr) : bool :=
  match a, b with
  | [], [] => true
  | x :: a', y :: b' => (x =? y) && str_eq a' b'
  | _, _ => false
  end.

(** Q1.py, lines 79-85. Both files are opened (the raw one first) before
    either is read; neither is changed. *)
Definition verify_files (w : world) : result world :=
  raw ← read_text RAW_FILE w;
  dec ← read_text DEC_FILE w;
  let same := str_eq raw dec in
  if same then
    mret (print "Decryption Successful: Original and decrypted files match." w)
  else
    mret (print "Decryption Failed: Files do not match." w).

(** Q1.py, lines 92-94: the body of the [__main__] block once the two
    [int(input(...))] calls have produced [shift1] and [shift2]. The console
    dialogue that yields the two integers is not part of this model. *)
Definition main (shift1 shift2 : Z) (w : world) : result world :=
  w1 ← encrypt_file shift1 shift2 w;
  w2 ← decrypt_file shift1 shift2 w1;
  verify_files w2.

(** ** The specification's vocabulary (spec sections 3, 4.1-4.3)

    These definitions follow the wording of the specification, not the code;
    the theorems below compare them with the embedding above. *)

(** The four 13-letter segments. *)
Inductive segment : Type :=
  | LowerFirst
  | LowerSecond
  | UpperFirst
  | UpperSecond.

(** First and last letter of a segment: a-m, n-z, A-M, N-Z. *)
Definition origin (s : segment) : ascii :=
  match s with
  | LowerFirst => "a"
  | LowerSecond => "n"
  | UpperFirst => "A"
  | UpperSecond => "N"
  end.

Definition last_letter (s : segment) : ascii :=
  match s with
  | LowerFirst => "m"
  | LowerSecond => "z"
  | UpperFirst => "M"
  | UpperSecond => "Z"
  end.

Definition in_segment (s : segment) (c : Z) : Prop :=
  cp (origin s) ≤ c ≤ cp (last_letter s).

(** The shift function the program uses for a segment. *)
Definition shift_fn (s : segment) : pystr → Z → result pystr :=
  match s with
  | LowerFirst => shift_lower_first
  | LowerSecond => shift_lower_second
  | UpperFirst => shift_upper_first
  | UpperSecond => shift_upper_second
  end.

(** Spec 4.1, [rotate(c, origin, amount)]:
    [index = ((ord(c) - ord(origin)) + (amount mod 13)) mod 13], floor-mod,
    and the result is [origin + index]. *)
Definition rotate (c origin : pystr) (amount : Z) : result pystr :=
  oc ← ord c;
  o ← ord origin;
  let index := ((oc - o) + (amount mod 13)) mod 13 in
  chr (o + index).

(** Spec 3: lowercase is a..z, uppercase is A..Z, a letter is either. *)
Definition is_lowercase (c : Z) : bool := (cp "a" <=? c) && (c <=? cp "z").
Definition is_uppercase (c : Z) : bool := (cp "A" <=? c) && (c <=? cp "Z").
Definition is_letter (c : Z) : bool := is_lowercase c || is_uppercase c.

(** One row of the rule table of spec 4.2: the class test, the segment whose
    origin is used, and the signed rotation amount as a function of the keys. *)
Record rule : Type := Rule {
  applies : Z → bool;
  seg : segment;
  amount : Z → Z → Z
}.

(** Spec 4.2, the encode table, in priority order. *)
Definition encode_table : list rule :=
  [ Rule (λ c, is_lowercase c && (c <=? cp "m")) LowerFirst (λ key1 key2, key1 * key2);
    Rule (λ c, is_lowercase c && (cp "m" <? c)) LowerSecond (λ key1 key2, - (key1 + key2));
    Rule (λ c, is_uppercase c && (c <=? cp "M")) UpperFirst (λ key1 key2, - key1);
    Rule (λ c, is_uppercase c && (cp "M" <? c)) UpperSecond (λ key1 key2, key2 * key2) ].

(** Spec 4.3, the decode table: the same class tests and segments, each amount
    replaced by its additive inverse. *)
Definition negate (r : rule) : rule :=
  Rule (applies r) (seg r) (λ key1 key2, - amount r key1 key2).

Definition decode_table : list rule := map negate encode_table.

(** First match wins; no match is the fifth class, passthrough. *)
Definition first_match (table : list rule) (c : Z) : option rule :=
  List.find (λ r, applies r c) table.

Definition dispatch (table : list rule) (c key1 key2 : Z) : result pystr :=
  match first_match table c with
  | Some r => rotate [c] (lit (origin (seg r))) (amount r key1 key2)
  | None => Ok [c]
  end.

(** The class of a character: its segment, or [None] for passthrough. *)
Definition classify (c : Z) : option segment := seg <$> first_match encode_table c.

(** The rows of a table that apply to a character. *)
Definition matching (table : list rule) (c : Z) : list rule :=
  List.filter (λ r, applies r c) table.

(** The character domain: the code points of Python's [str]. *)
Definition valid_cp (c : Z) : Prop := 0 ≤ c ≤ maxunicode.

(** A transform of one-character strings that is a bijection of the
    character domain onto itself. *)
Definition bijective_on_chars (f : pystr → result pystr) : Prop :=
  (∀ c, valid_cp c → ∃ e, valid_cp e ∧ f [c] = Ok [e]) ∧
  (∀ c1 c2, valid_cp c1 → valid_cp c2 → f [c1] = f [c2] → c1 = c2) ∧
  (∀ e, valid_cp e → ∃ c, valid_cp c ∧ f [c] = Ok [e]).

(** ** Code-point view used in the proofs *)

(** Rotation of code point [c] by [k] inside the block of 13 that starts at [o]. *)
Definition rot (o c k : Z) : Z := o + (c - o + k mod 13) mod 13.

(** What a table does to a code point. *)
Definition transform_cp (table : list rule) (key1 key2 c : Z) : Z :=
  match first_match table c with
  | Some r => rot (cp (origin (seg r))) c (amount r key1 key2)
  | None => c
  end.

(** The signed amount by which encoding rotates a segment. *)
Definition enc_amount (s : segment) (key1 key2 : Z) : Z :=
  match s with
  | LowerFirst => key1 * key2
  | LowerSecond => - (key1 + key2)
  | UpperFirst => - key1
  | UpperSecond => key2 * key2
  end.

(** * Proofs *)

(** ** Arithmetic of the cyclic block *)

Section Rotation.
Variables o c k : Z.

Lemma rot_range : o ≤ rot o c k < o + 13.
Proof. unfold rot. pose proof (Z.mod_pos_bound (c - o + k mod 13) 13). lia. Qed.

Lemma rot_congruent : (13 | (c - o) + k - (rot o c k - o)).
Proof.
  unfold rot. exists ((c - o + k mod 13) / 13 + k / 13).
  pose proof (Z.div_mod (c - o + k mod 13) 13).
  pose proof (Z.div_mod k 13). lia.
Qed.

Hypothesis in_block : o ≤ c < o + 13.

Lemma rot_cancel : rot o (rot o c k) (- k) = c.
Proof using in_block.
  unfold rot.
  replace (o + (c - o + k mod 13) mod 13 - o) with ((c - o + k mod 13) mod 13) by lia.
  assert (k mod 13 + (- k) mod 13 = 0 ∨ k mod 13 + (- k) mod 13 = 13) as Hopp.
  { pose proof (Z.div_mod k 13). pose proof (Z.div_mod (- k) 13).
    pose proof (Z.mod_pos_bound k 13). pose proof (Z.mod_pos_bound (- k) 13). lia. }
  pose proof (Z.mod_pos_bound k 13).
  pose proof (Z.mod_pos_bound (- k) 13).
  remember (k mod 13) as n eqn:En. remember ((- k) mod 13) as m eqn:Em.
  clear En Em.
  assert ((c - o + n) mod 13 = c - o + n ∨ (c - o + n) mod 13 = c - o + n - 13) as [-> | ->].
  { destruct (Z_lt_dec (c - o + n) 13).
    - left. apply Z.mod_small. lia.
    - right. replace (c - o + n) with ((c - o + n - 13) + 1 * 13) at 1 by lia.
      rewrite Z.mod_add by lia. apply Z.mod_small. lia. }
  - destruct Hopp.
    + replace (c - o + n + m) with (c - o) by lia. rewrite Z.mod_small; lia.
    + replace (c - o + n + m) with (c - o + 1 * 13) by lia.
      rewrite Z.mod_add by lia. rewrite Z.mod_small; lia.
  - destruct Hopp.
    + replace (c - o + n - 13 + m) with (c - o - 13) by lia.
      replace (c - o - 13) with (c - o + (-1) * 13) by lia.
      rewrite Z.mod_add by lia. rewrite Z.mod_small; lia.
    + replace (c - o + n - 13 + m) with (c - o) by lia. rewrite Z.mod_small; lia.
Qed.
End Rotation.

Lemma rot_cancel_opp o c k : o ≤ c < o + 13 → rot o (rot o c (- k)) k = c.
Proof.
  intros H. rewrite <- (Z.opp_involutive k) at 2. by apply rot_cancel.
Qed.

(** ** The built-ins on one-character strings *)

Ltac cp_eval :=
  repeat match goal with
  | |- context [cp ?a] =>
      let v := eval vm_compute in (cp a) in change (cp a) with v
  | H : context [cp ?a] |- _ =>
      let v := eval vm_compute in (cp a) in change (cp a) with v in H
  end.

Ltac bool_cases :=
  repeat match goal with
  | |- context [?a <=? ?b] => destruct (Z.leb_spec a b); simpl; try lia
  | |- context [?a <? ?b] => destruct (Z.ltb_spec a b); simpl; try lia
  end.

Lemma str_le_single (a c : Z) : str_le [a] [c] = (a <=? c).
Proof. simpl. bool_cases; reflexivity. Qed.

Lemma chr_ok (i : Z) : valid_cp i → chr i = Ok [i].
Proof. unfold valid_cp, chr, maxunicode. intros H. bool_cases; reflexivity. Qed.

Lemma chr_rot (s : segment) (c k : Z) :
  chr (rot (cp (origin s)) c k) = Ok [rot (cp (origin s)) c k].
Proof.
  apply chr_ok. pose proof (rot_range (cp (origin s)) c k) as H.
  unfold valid_cp, maxunicode. destruct s; cp_eval; lia.
Qed.

(** ** The shift functions are the rotation primitive *)

Lemma shift_fn_rotate (s : segment) (c : pystr) (k : Z) :
  shift_fn s c k = rotate c (lit (origin s)) k.
Proof. destruct s; reflexivity. Qed.

Lemma rotate_cp (s : segment) (c k : Z) :
  rotate [c] (lit (origin s)) k = Ok [rot (cp (origin s)) c k].
Proof. unfold rotate, lit. simpl. apply chr_rot. Qed.

Lemma shift_fn_cp (s : segment) (c k : Z) :
  shift_fn s [c] k = Ok [rot (cp (origin s)) c k].
Proof. rewrite shift_fn_rotate. apply rotate_cp. Qed.

(** ** The dispatch functions are the rule tables *)

Lemma encrypt_character_dispatch (c key1 key2 : Z) :
  encrypt_character [c] key1 key2 = dispatch encode_table c key1 key2.
Proof.
  unfold encrypt_character, dispatch, first_match, encode_table, lit.
  rewrite !str_le_single. simpl List.find. unfold is_lowercase, is_uppercase.
  cp_eval. bool_cases; reflexivity.
Qed.

Lemma decrypt_character_dispatch (c key1 key2 : Z) :
  decrypt_character [c] key1 key2 = dispatch decode_table c key1 key2.
Proof.
  unfold decrypt_character, dispatch, first_match, decode_table, encode_table, lit.
  rewrite !str_le_single. simpl List.find. unfold is_lowercase, is_uppercase.
  cp_eval. bool_cases; simpl; rewrite ?Z.opp_involutive; reflexivity.
Qed.

Lemma dispatch_cp (table : list rule) (c key1 key2 : Z) :
  dispatch table c key1 key2 = Ok [transform_cp table key1 key2 c].
Proof.
  unfold dispatch, transform_cp. destruct (first_match table c) as [r|]; [|done].
  apply rotate_cp.
Qed.

(** ** Classification by segment *)

Ltac table_eval :=
  unfold transform_cp, classify, matching, first_match, decode_table, encode_table,
    in_segment, is_letter, is_lowercase, is_uppercase in *;
  simpl List.find; simpl List.filter; simpl origin in *; simpl last_letter in *;
  cp_eval.

Lemma segment_cases (c : Z) : (∃ s, in_segment s c) ∨ is_letter c = false.
Proof.
  destruct (Z_le_dec 97 c), (Z_le_dec c 109), (Z_le_dec 110 c), (Z_le_dec c 122),
    (Z_le_dec 65 c), (Z_le_dec c 77), (Z_le_dec 78 c), (Z_le_dec c 90);
    try lia;
    first
      [ left; exists LowerFirst; table_eval; lia
      | left; exists LowerSecond; table_eval; lia
      | left; exists UpperFirst; table_eval; lia
      | left; exists UpperSecond; table_eval; lia
      | right; table_eval; bool_cases; reflexivity ].
Qed.

Lemma in_segment_block (s : segment) (c : Z) :
  in_segment s c ↔ cp (origin s) ≤ c < cp (origin s) + 13.
Proof. destruct s; table_eval; lia. Qed.

Lemma classify_in_segment (s : segment) (c : Z) : in_segment s c → classify c = Some s.
Proof. intros H. destruct s; table_eval; bool_cases; reflexivity. Qed.

Lemma transform_encode_segment (s : segment) (c key1 key2 : Z) :
  in_segment s c →
  transform_cp encode_table key1 key2 c = rot (cp (origin s)) c (enc_amount s key1 key2).
Proof. intros H. destruct s; table_eval; bool_cases; reflexivity. Qed.

Lemma transform_decode_segment (s : segment) (c key1 key2 : Z) :
  in_segment s c →
  transform_cp decode_table key1 key2 c = rot (cp (origin s)) c (- enc_amount s key1 key2).
Proof. intros H. destruct s; table_eval; bool_cases; reflexivity. Qed.

Lemma transform_encode_passthrough (c key1 key2 : Z) :
  is_letter c = false → transform_cp encode_table key1 key2 c = c.
Proof.
  unfold is_letter, is_lowercase, is_uppercase. cp_eval. intros H.
  table_eval. revert H. bool_cases; done.
Qed.

Lemma transform_decode_passthrough (c key1 key2 : Z) :
  is_letter c = false → transform_cp decode_table key1 key2 c = c.
Proof.
  unfold is_letter, is_lowercase, is_uppercase. cp_eval. intros H.
  table_eval. revert H. bool_cases; done.
Qed.

Lemma rot_in_segment (s : segment) (c k : Z) : in_segment s (rot (cp (origin s)) c k).
Proof. apply in_segment_block, rot_range. Qed.

(** ** Inverse and validity on code points *)

Lemma transform_decode_encode (c key1 key2 : Z) :
  transform_cp decode_table key1 key2 (transform_cp encode_table key1 key2 c) = c.
Proof.
  destruct (segment_cases c) as [[s Hs] | Hc].
  - rewrite (transform_encode_segment s) by done.
    rewrite (transform_decode_segment s) by apply rot_in_segment.
    apply rot_cancel. by apply in_segment_block.
  - by rewrite !transform_encode_passthrough, transform_decode_passthrough.
Qed.

Lemma transform_encode_decode (c key1 key2 : Z) :
  transform_cp encode_table key1 key2 (transform_cp decode_table key1 key2 c) = c.
Proof.
  destruct (segment_cases c) as [[s Hs] | Hc].
  - rewrite (transform_decode_segment s) by done.
    rewrite (transform_encode_segment s) by apply rot_in_segment.
    apply rot_cancel_opp. by apply in_segment_block.
  - by rewrite !transform_decode_passthrough, transform_encode_passthrough.
Qed.

Lemma in_segment_valid (s : segment) (c : Z) : in_segment s c → valid_cp c.
Proof. unfold valid_cp, maxunicode. destruct s; table_eval; lia. Qed.

Lemma transform_encode_valid (c key1 key2 : Z) :
  valid_cp c → valid_cp (transform_cp encode_table key1 key2 c).
Proof.
  intros Hv. destruct (segment_cases c) as [[s Hs] | Hc].
  - rewrite (transform_encode_segment s) by done.
    eapply in_segment_valid, rot_in_segment.
  - by rewrite transform_encode_passthrough.
Qed.

Lemma transform_decode_valid (c key1 key2 : Z) :
  valid_cp c → valid_cp (transform_cp decode_table key1 key2 c).
Proof.
  intros Hv. destruct (segment_cases c) as [[s Hs] | Hc].
  - rewrite (transform_decode_segment s) by done.
    eapply in_segment_valid, rot_in_segment.
  - by rewrite transform_decode_passthrough.
Qed.

Lemma encrypt_character_cp (c key1 key2 : Z) :
  encrypt_character [c] key1 key2 = Ok [transform_cp encode_table key1 key2 c].
Proof. rewrite encrypt_character_dispatch. apply dispatch_cp. Qed.

Lemma decrypt_character_cp (c key1 key2 : Z) :
  decrypt_character [c] key1 key2 = Ok [transform_cp decode_table key1 key2 c].
Proof. rewrite decrypt_character_dispatch. apply dispatch_cp. Qed.

(** * The specification *)

(** C1. Round trip: for every single character [c], letter or not, and every
    pair of integer keys (zero and negative keys of any magnitude included),
    the Python expression
    [decrypt_character(encrypt_character(c, key1, key2), key1, key2)]
    evaluates, without raising, to [c]. *)
Theorem decrypt_encrypt_character (c key1 key2 : Z) :
  (e ← encrypt_character [c] key1 key2; decrypt_character e key1 key2) = Ok [c].
Proof.
  rewrite encrypt_character_cp. simpl.
  rewrite decrypt_character_cp. by rewrite transform_decode_encode.
Qed.

(** C2. Rotation primitive: for every segment, with origin [o] one of
    ['a'], ['n'], ['A'], ['N'], every character [c] (in particular every letter
    of the segment) and every signed amount [k], the segment's shift function
    is the specification's [rotate] and returns [chr(ord(o) + index)] with
    [index = ((ord(c) - ord(o)) + (k mod 13)) mod 13]; [chr] does not raise;
    [index] lies in [0, 13) and is congruent to [(ord(c) - ord(o)) + k]
    modulo 13 (floor-mod), whatever the sign or size of [k]. *)
Theorem shift_is_rotation (s : segment) (c k : Z) :
  let o := cp (origin s) in
  let index := ((c - o) + (k mod 13)) mod 13 in
  shift_fn s [c] k = rotate [c] (lit (origin s)) k ∧
  shift_fn s [c] k = chr (o + index) ∧
  chr (o + index) = Ok [o + index] ∧
  0 ≤ index < 13 ∧
  (13 | (c - o) + k - index).
Proof.
  intros o index.
  assert (o + index = rot (cp (origin s)) c k) as Hrot by reflexivity.
  pose proof (rot_range (cp (origin s)) c k) as Hrange.
  pose proof (rot_congruent (cp (origin s)) c k) as Hcong.
  split_and!.
  - apply shift_fn_rotate.
  - rewrite Hrot, chr_rot. apply shift_fn_cp.
  - rewrite Hrot. apply chr_rot.
  - subst o. lia.
  - subst o. lia.
  - replace index with (rot (cp (origin s)) c k - cp (origin s)) by (subst o; lia).
    exact Hcong.
Qed.

(** C3. Encode dispatch table: for all integer keys, [encrypt_character] is
    the first-match lookup in the table of spec 4.2: a lowercase letter up to
    ['m'] is rotated in segment ['a'] by [+(key1*key2)], a lowercase letter
    after ['m'] in segment ['n'] by [-(key1+key2)], an uppercase letter up to
    ['M'] in segment ['A'] by [-key1], an uppercase letter after ['M'] in
    segment ['N'] by [+(key2*key2)], and any other character is returned
    unchanged. The classes are mutually exclusive: at most one row applies to a
    character, and none applies exactly when it is not a letter. *)
Theorem encrypt_character_table (c key1 key2 : Z) :
  encrypt_character [c] key1 key2 = dispatch encode_table c key1 key2 ∧
  (length (matching encode_table c) ≤ 1)%nat ∧
  (matching encode_table c = [] ↔ is_letter c = false) ∧
  (first_match encode_table c = None ↔ is_letter c = false).
Proof.
  split; [apply encrypt_character_dispatch|].
  table_eval. bool_cases; simpl; split_and!; (lia || done).
Qed.

(** C4. Decode dispatch mirrors encode: [decrypt_character] is the first-match
    lookup in the table with the same class tests and segments and each amount
    negated, that is segment ['a'] by [-(key1*key2)], segment ['n'] by
    [+(key1+key2)], segment ['A'] by [+key1], segment ['N'] by [-(key2*key2)];
    a character is classified by decode exactly as by encode, and non-letters
    pass through unchanged. *)
Theorem decrypt_character_table (c key1 key2 : Z) :
  decrypt_character [c] key1 key2 = dispatch decode_table c key1 key2 ∧
  map (λ r, (seg r, amount r key1 key2)) decode_table =
    [ (LowerFirst, - (key1 * key2)); (LowerSecond, key1 + key2);
      (UpperFirst, key1); (UpperSecond, - (key2 * key2)) ] ∧
  map (λ r, (seg r, amount r key1 key2)) decode_table =
    map (λ r, (seg r, - amount r key1 key2)) encode_table ∧
  first_match decode_table c = negate <$> first_match encode_table c ∧
  (first_match decode_table c = None → decrypt_character [c] key1 key2 = Ok [c]) ∧
  (first_match decode_table c = None ↔ is_letter c = false).
Proof.
  split_and!.
  - apply decrypt_character_dispatch.
  - simpl. by rewrite !Z.opp_involutive.
  - reflexivity.
  - table_eval. bool_cases; reflexivity.
  - intros H. rewrite decrypt_character_dispatch. unfold dispatch. by rewrite H.
  - table_eval. bool_cases; simpl; done.
Qed.

(** C5. Class closure: for every key pair, [encrypt_character] maps a
    character of a segment (a-m, n-z, A-M or N-Z) to a character of the same
    segment, and so does [decrypt_character]; the image is therefore
    classified into the same class as the argument. *)
Theorem class_closure (s : segment) (c key1 key2 : Z) :
  in_segment s c →
  ∃ e d,
    encrypt_character [c] key1 key2 = Ok [e] ∧ in_segment s e ∧
    classify e = classify c ∧
    decrypt_character [c] key1 key2 = Ok [d] ∧ in_segment s d ∧
    classify d = classify c.
Proof.
  intros Hs.
  exists (transform_cp encode_table key1 key2 c), (transform_cp decode_table key1 key2 c).
  rewrite encrypt_character_cp, decrypt_character_cp.
  rewrite (transform_encode_segment s), (transform_decode_segment s) by done.
  rewrite !(classify_in_segment s) by (done || apply rot_in_segment).
  split_and!; try done; apply rot_in_segment.
Qed.

Lemma class_closure_witness :
  in_segment LowerFirst (cp "a") ∧
  ∃ e d,
    encrypt_character [cp "a"] 3 4 = Ok [e] ∧ in_segment LowerFirst e ∧
    classify e = classify (cp "a") ∧
    decrypt_character [cp "a"] 3 4 = Ok [d] ∧ in_segment LowerFirst d ∧
    classify d = classify (cp "a").
Proof.
  split.
  - unfold in_segment. simpl. vm_compute. split; discriminate.
  - apply (class_closure LowerFirst (cp "a") 3 4).
    unfold in_segment. simpl. vm_compute. split; discriminate.
Defined.

(** C6. Passthrough: a character that is not in [a-zA-Z] (digit,
    punctuation, whitespace, newline, ...) is returned unchanged by both
    [encrypt_character] and [decrypt_character], whatever the keys. *)
Theorem passthrough (c key1 key2 : Z) :
  is_letter c = false →
  encrypt_character [c] key1 key2 = Ok [c] ∧
  decrypt_character [c] key1 key2 = Ok [c].
Proof.
  intros Hc. rewrite encrypt_character_cp, decrypt_character_cp.
  by rewrite transform_encode_passthrough, transform_decode_passthrough.
Qed.

Lemma passthrough_witness :
  is_letter (cp "!") = false ∧
  encrypt_character (lit "!") 5 7 = Ok (lit "!") ∧
  decrypt_character (lit "!") 5 7 = Ok (lit "!").
Proof.
  split; [reflexivity | apply (passthrough (cp "!") 5 7); reflexivity].
Defined.

(** C8. Concrete scenarios: with keys (3, 4), ['a'] encrypts to ['m'], ['n']
    to ['t'], ['A'] to ['K'], ['N'] to ['Q']; ['!'] with keys (5, 7) stays
    ['!']; and decrypting each of the four letter results with keys (3, 4)
    gives back the original letter. *)
Theorem concrete_scenarios :
  encrypt_character (lit "a") 3 4 = Ok (lit "m") ∧
  encrypt_character (lit "n") 3 4 = Ok (lit "t") ∧
  encrypt_character (lit "A") 3 4 = Ok (lit "K") ∧
  encrypt_character (lit "N") 3 4 = Ok (lit "Q") ∧
  encrypt_character (lit "!") 5 7 = Ok (lit "!") ∧
  decrypt_character (lit "m") 3 4 = Ok (lit "a") ∧
  decrypt_character (lit "t") 3 4 = Ok (lit "n") ∧
  decrypt_character (lit "K") 3 4 = Ok (lit "A") ∧
  decrypt_character (lit "Q") 3 4 = Ok (lit "N").
Proof. repeat split; reflexivity. Qed.

(** ** Whole texts *)

Lemma join_gen_chars (f : pystr → result pystr) (g : Z → Z) (text : pystr) :
  (∀ c, f [c] = Ok [g c]) → join_gen f (chars text) = Ok (map g text).
Proof.
  intros Hf. unfold chars. induction text as [|c text IH]; [done|].
  cbn [map join_gen]. rewrite Hf. cbn [mbind result_bind]. by rewrite IH.
Qed.

Lemma join_gen_ext (f g : pystr → result pystr) (items : list pystr) :
  (∀ c, f c = g c) → join_gen f items = join_gen g items.
Proof.
  intros Hfg. induction items as [|c items IH]; [done|].
  cbn [join_gen]. by rewrite Hfg, IH.
Qed.

Lemma encrypt_text_cp (key1 key2 : Z) (text : pystr) :
  encrypt_text key1 key2 text = Ok (map (transform_cp encode_table key1 key2) text).
Proof. apply join_gen_chars. intros c. apply encrypt_character_cp. Qed.

Lemma decrypt_text_cp (key1 key2 : Z) (text : pystr) :
  decrypt_text key1 key2 text = Ok (map (transform_cp decode_table key1 key2) text).
Proof. apply join_gen_chars. intros c. apply decrypt_character_cp. Qed.

Lemma decrypt_encrypt_text (key1 key2 : Z) (text : pystr) :
  (enc ← encrypt_text key1 key2 text; decrypt_text key1 key2 enc) = Ok text.
Proof.
  rewrite encrypt_text_cp. simpl. rewrite decrypt_text_cp. f_equal.
  rewrite <- list_fmap_compose. rewrite <- (list_fmap_id text) at 2.
  apply list_fmap_ext. intros i c _. simpl. apply transform_decode_encode.
Qed.

(** The file layer end to end: after [encrypt_file] and [decrypt_file] with
    the same keys, the decrypted file holds the text of the raw file, which is
    what [verify_files] compares. *)
Lemma decrypt_encrypt_file (key1 key2 : Z) (text : pystr) (w : world) :
  files w !! RAW_FILE = Some text →
  ∃ w',
    (w1 ← encrypt_file key1 key2 w; decrypt_file key1 key2 w1) = Ok w' ∧
    files w' !! RAW_FILE = Some text ∧
    files w' !! DEC_FILE = Some text.
Proof.
  intros Hraw. unfold encrypt_file, read_text. rewrite Hraw. simpl.
  rewrite encrypt_text_cp. simpl.
  unfold decrypt_file, read_text. simpl. rewrite lookup_insert_eq. simpl.
  pose proof (decrypt_encrypt_text key1 key2 text) as Hrt.
  rewrite encrypt_text_cp in Hrt. simpl in Hrt. rewrite Hrt. simpl.
  eexists. split; [done|]. simpl. split.
  - by rewrite !lookup_insert_ne.
  - apply lookup_insert_eq.
Qed.

(** C7. Text transform: for every text and key pair the whole-text encode
    and decode return (without raising) a text of exactly [len(text)]
    characters whose character [i] is the per-character transform of character
    [i] of the input, so nothing is inserted, deleted or reordered, and
    non-letters are unchanged in place. [encrypt_file] writes exactly that text
    to the encrypted file when the raw file holds [text], and [decrypt_file]
    writes the decoded text to the decrypted file when the encrypted file holds
    [text]. *)
Theorem text_transform_preserves (text : pystr) (key1 key2 : Z) :
  ∃ enc dec,
    encrypt_text key1 key2 text = Ok enc ∧
    decrypt_text key1 key2 text = Ok dec ∧
    length enc = length text ∧
    length dec = length text ∧
    (∀ (i : nat) (c : Z), text !! i = Some c →
       ∃ e d,
         enc !! i = Some e ∧ encrypt_character [c] key1 key2 = Ok [e] ∧
         dec !! i = Some d ∧ decrypt_character [c] key1 key2 = Ok [d] ∧
         (is_letter c = false → e = c ∧ d = c)) ∧
    (∀ w, files w !! RAW_FILE = Some text →
       ∃ w', encrypt_file key1 key2 w = Ok w' ∧ files w' !! ENC_FILE = Some enc) ∧
    (∀ w, files w !! ENC_FILE = Some text →
       ∃ w', decrypt_file key1 key2 w = Ok w' ∧ files w' !! DEC_FILE = Some dec).
Proof.
  exists (map (transform_cp encode_table key1 key2) text),
    (map (transform_cp decode_table key1 key2) text).
  split_and!.
  - apply encrypt_text_cp.
  - apply decrypt_text_cp.
  - apply length_map.
  - apply length_map.
  - intros i c Hi.
    exists (transform_cp encode_table key1 key2 c), (transform_cp decode_table key1 key2 c).
    change (map (transform_cp encode_table key1 key2) text)
      with (transform_cp encode_table key1 key2 <$> text).
    change (map (transform_cp decode_table key1 key2) text)
      with (transform_cp decode_table key1 key2 <$> text).
    rewrite !list_lookup_fmap, Hi. split_and!; try done.
    + apply encrypt_character_cp.
    + apply decrypt_character_cp.
    + intros Hc. by rewrite transform_encode_passthrough, transform_decode_passthrough.
  - intros w Hw. unfold encrypt_file, read_text. rewrite Hw. simpl.
    rewrite encrypt_text_cp. simpl. eexists. split; [done|]. simpl.
    apply lookup_insert_eq.
  - intros w Hw. unfold decrypt_file, read_text. rewrite Hw. simpl.
    rewrite decrypt_text_cp. simpl. eexists. split; [done|]. simpl.
    apply lookup_insert_eq.
Qed.

Lemma text_transform_witness :
  files (World {[ RAW_FILE := lit "H" ++ lit "i" ++ lit "!" ]} []) !! RAW_FILE
    = Some (lit "H" ++ lit "i" ++ lit "!") ∧
  ∃ w' enc,
    encrypt_file 3 4 (World {[ RAW_FILE := lit "H" ++ lit "i" ++ lit "!" ]} []) = Ok w' ∧
    files w' !! ENC_FILE = Some enc ∧
    length enc = 3%nat ∧
    enc !! 2%nat = Some (cp "!").
Proof.
  split; [apply lookup_singleton_eq|].
  destruct (text_transform_preserves (lit "H" ++ lit "i" ++ lit "!") 3 4)
    as (enc & dec & _ & _ & Hlen & _ & Hchar & Hfile & _).
  destruct (Hfile (World {[ RAW_FILE := lit "H" ++ lit "i" ++ lit "!" ]} []))
    as (w' & Hrun & Hout); [apply lookup_singleton_eq|].
  destruct (Hchar 2%nat (cp "!")) as (e & d & He & _ & _ & _ & Hsame); [reflexivity|].
  destruct Hsame as [-> _]; [reflexivity|].
  exists w', enc. split_and!; done.
Defined.

(** C9. Encode is a left inverse of decode: for every character [c] and key
    pair, [encrypt_character(decrypt_character(c, key1, key2), key1, key2)]
    evaluates to [c]; hence for fixed keys [encrypt_character] and
    [decrypt_character] are bijections of the character domain. *)
Theorem encrypt_decrypt_character (key1 key2 : Z) :
  (∀ c : Z,
     (d ← decrypt_character [c] key1 key2; encrypt_character d key1 key2) = Ok [c]) ∧
  bijective_on_chars (λ ch, encrypt_character ch key1 key2) ∧
  bijective_on_chars (λ ch, decrypt_character ch key1 key2).
Proof.
  split_and!.
  - intros c. rewrite decrypt_character_cp. simpl.
    rewrite encrypt_character_cp. by rewrite transform_encode_decode.
  - split_and!.
    + intros c Hc. eexists. split; [|apply encrypt_character_cp].
      by apply transform_encode_valid.
    + intros c1 c2 _ _. rewrite !encrypt_character_cp. intros [= H].
      rewrite <- (transform_decode_encode c1 key1 key2).
      rewrite <- (transform_decode_encode c2 key1 key2). by rewrite H.
    + intros e He. exists (transform_cp decode_table key1 key2 e).
      split; [by apply transform_decode_valid|].
      rewrite encrypt_character_cp. by rewrite transform_encode_decode.
  - split_and!.
    + intros c Hc. eexists. split; [|apply decrypt_character_cp].
      by apply transform_decode_valid.
    + intros c1 c2 _ _. rewrite !decrypt_character_cp. intros [= H].
      rewrite <- (transform_encode_decode c1 key1 key2).
      rewrite <- (transform_encode_decode c2 key1 key2). by rewrite H.
    + intros e He. exists (transform_cp encode_table key1 key2 e).
      split; [by apply transform_encode_valid|].
      rewrite decrypt_character_cp. by rewrite transform_decode_encode.
Qed.

Lemma encrypt_decrypt_witness :
  valid_cp (cp "q") ∧
  (d ← decrypt_character (lit "q") 3 4; encrypt_character d 3 4) = Ok (lit "q") ∧
  ∃ e, valid_cp e ∧ encrypt_character (lit "q") 3 4 = Ok [e].
Proof.
  assert (valid_cp (cp "q")) as Hq by (vm_compute; split; discriminate).
  destruct (encrypt_decrypt_character 3 4) as (Hinv & (Htotal & _ & _) & _).
  split_and!; [exact Hq | apply Hinv | apply Htotal, Hq].
Defined.

(** ** Dependence on the keys *)

Lemma opp_mod_congr (a b : Z) : a mod 13 = b mod 13 → (- a) mod 13 = (- b) mod 13.
Proof.
  intros H. pose proof (Z.div_mod a 13). pose proof (Z.div_mod b 13).
  replace (- a) with (- b + (b / 13 - a / 13) * 13) by lia.
  by rewrite Z.mod_add.
Qed.

Lemma rotate_residue (c o : pystr) (k k' : Z) :
  k mod 13 = k' mod 13 → rotate c o k = rotate c o k'.
Proof. unfold rotate. by intros ->. Qed.

Lemma shift_fn_residue (s : segment) (c : pystr) (k k' : Z) :
  k mod 13 = k' mod 13 → shift_fn s c k = shift_fn s c k'.
Proof. rewrite !shift_fn_rotate. apply rotate_residue. Qed.

Lemma shift_fn_period (s : segment) (c : pystr) (k : Z) :
  shift_fn s c k = shift_fn s c (k + 13).
Proof.
  apply shift_fn_residue. replace (k + 13) with (k + 1 * 13) by lia.
  by rewrite Z.mod_add.
Qed.

(** C10. Key periodicity: each of the four shift functions depends on its
    amount only through the residue modulo 13, in particular
    [shift(c, k) == shift(c, k + 13)] for every [c] and [k]; hence two key
    pairs whose derived amounts [key1*key2], [key1+key2], [key1] and
    [key2*key2] agree modulo 13 encrypt every text identically. *)
Theorem key_periodicity :
  (∀ c k, shift_lower_first c k = shift_lower_first c (k + 13)) ∧
  (∀ c k, shift_lower_second c k = shift_lower_second c (k + 13)) ∧
  (∀ c k, shift_upper_first c k = shift_upper_first c (k + 13)) ∧
  (∀ c k, shift_upper_second c k = shift_upper_second c (k + 13)) ∧
  (∀ s c k k', k mod 13 = k' mod 13 → shift_fn s c k = shift_fn s c k') ∧
  (∀ key1 key2 key1' key2',
     (key1 * key2) mod 13 = (key1' * key2') mod 13 →
     (key1 + key2) mod 13 = (key1' + key2') mod 13 →
     key1 mod 13 = key1' mod 13 →
     (key2 * key2) mod 13 = (key2' * key2') mod 13 →
     ∀ text, encrypt_text key1 key2 text = encrypt_text key1' key2' text).
Proof.
  split_and!.
  - apply (shift_fn_period LowerFirst).
  - apply (shift_fn_period LowerSecond).
  - apply (shift_fn_period UpperFirst).
  - apply (shift_fn_period UpperSecond).
  - apply shift_fn_residue.
  - intros key1 key2 key1' key2' Hprod Hsum Hk1 Hsq text.
    apply join_gen_ext. intros ch. unfold encrypt_character.
    pose proof (shift_fn_residue LowerFirst ch _ _ Hprod) as H1.
    pose proof (shift_fn_residue LowerSecond ch _ _ (opp_mod_congr _ _ Hsum)) as H2.
    pose proof (shift_fn_residue UpperFirst ch _ _ (opp_mod_congr _ _ Hk1)) as H3.
    pose proof (shift_fn_residue UpperSecond ch _ _ Hsq) as H4.
    cbn [shift_fn] in H1, H2, H3, H4. by rewrite H1, H2, H3, H4.
Qed.

Lemma key_periodicity_witness :
  (3 * 4) mod 13 = (16 * 17) mod 13 ∧
  (3 + 4) mod 13 = (16 + 17) mod 13 ∧
  3 mod 13 = 16 mod 13 ∧
  (4 * 4) mod 13 = (17 * 17) mod 13 ∧
  encrypt_text 3 4 (lit "a" ++ lit "Z" ++ lit "!")
    = encrypt_text 16 17 (lit "a" ++ lit "Z" ++ lit "!").
Proof.
  destruct key_periodicity as (_ & _ & _ & _ & _ & Hkeys).
  do 4 (split; [reflexivity|]). apply Hkeys; reflexivity.
Defined.

(** * Further properties of Q1.py *)

(** ** The file layer: [encrypt_file], [decrypt_file], [verify_files], [main] *)

Lemma str_eq_refl (a : pystr) : str_eq a a = true.
Proof. induction a as [|x a IH]; [done|]. simpl. by rewrite Z.eqb_refl, IH. Qed.

Lemma decrypt_text_encrypted (key1 key2 : Z) (text : pystr) :
  decrypt_text key1 key2 (map (transform_cp encode_table key1 key2) text) = Ok text.
Proof.
  pose proof (decrypt_encrypt_text key1 key2 text) as H.
  by rewrite encrypt_text_cp in H.
Qed.

Lemma encrypt_file_ok (key1 key2 : Z) (text : pystr) (w : world) :
  files w !! RAW_FILE = Some text →
  encrypt_file key1 key2 w =
    Ok (World (<[ENC_FILE := map (transform_cp encode_table key1 key2) text]> (files w))
          (stdout w ++ ["Encryption complete. Output written to 'encrypted_text.txt'."%string])).
Proof.
  intros Hraw. unfold encrypt_file, read_text. rewrite Hraw. simpl.
  by rewrite encrypt_text_cp.
Qed.

Lemma decrypt_file_ok (key1 key2 : Z) (text : pystr) (w : world) :
  files w !! ENC_FILE = Some text →
  decrypt_file key1 key2 w =
    Ok (World (<[DEC_FILE := map (transform_cp decode_table key1 key2) text]> (files w))
          (stdout w ++ ["Decryption complete. Output written to 'decrypted_text.txt'."%string])).
Proof.
  intros Henc. unfold decrypt_file, read_text. rewrite Henc. simpl.
  by rewrite decrypt_text_cp.
Qed.

Lemma main_ok (key1 key2 : Z) (text : pystr) (w : world) :
  files w !! RAW_FILE = Some text →
  main key1 key2 w =
    Ok (World
          (<[DEC_FILE := text]>
             (<[ENC_FILE := map (transform_cp encode_table key1 key2) text]> (files w)))
          (stdout w ++
             [ "Encryption complete. Output written to 'encrypted_text.txt'.";
               "Decryption complete. Output written to 'decrypted_text.txt'.";
               "Decryption Successful: Original and decrypted files match." ]%string)).
Proof.
  intros Hraw. unfold main. rewrite (encrypt_file_ok _ _ text) by done. simpl.
  erewrite decrypt_file_ok by (simpl; apply lookup_insert_eq). simpl.
  pose proof (decrypt_text_encrypted key1 key2 text) as Hdec.
  rewrite decrypt_text_cp in Hdec. injection Hdec as ->.
  unfold verify_files, read_text. simpl.
  rewrite (lookup_insert_ne _ DEC_FILE RAW_FILE) by done.
  rewrite (lookup_insert_ne _ ENC_FILE RAW_FILE) by done.
  rewrite Hraw. simpl.
  rewrite lookup_insert_eq. simpl. rewrite str_eq_refl. simpl.
  unfold print. simpl. by rewrite <- !app_assoc.
Qed.

Lemma main_raises (key1 key2 : Z) (w : world) :
  files w !! RAW_FILE = None → main key1 key2 w = Raise FileNotFoundError.
Proof. intros Hraw. unfold main, encrypt_file, read_text. by rewrite Hraw. Qed.





(** X3. Running the program again is harmless: after a successful [main], a
    second [main] with the same keys also succeeds and leaves every file
    exactly as the first run left it. *)
Theorem main_idempotent (key1 key2 : Z) (w w1 : world) :
  main key1 key2 w = Ok w1 →
  ∃ w2, main key1 key2 w1 = Ok w2 ∧ files w2 = files w1.
Proof.
  intros Hrun. destruct (files w !! RAW_FILE) as [text|] eqn:Hraw.
  - rewrite (main_ok _ _ text) in Hrun by done. injection Hrun as <-.
    eexists. split.
    + apply (main_ok _ _ text). simpl.
      rewrite (lookup_insert_ne _ DEC_FILE RAW_FILE) by done.
      by rewrite (lookup_insert_ne _ ENC_FILE RAW_FILE) by done.
    + simpl. apply map_eq. intros name.
      rewrite !lookup_insert. repeat case_decide; congruence.
  - rewrite main_raises in Hrun by done. discriminate.
Qed.

Lemma main_idempotent_witness :
  ∃ w1 w2,
    main 3 4 (World {[ RAW_FILE := lit "H" ++ lit "i" ++ lit "!" ]} []) = Ok w1 ∧
    main 3 4 w1 = Ok w2 ∧ files w2 = files w1.
Proof.
  pose proof (main_ok 3 4 (lit "H" ++ lit "i" ++ lit "!")
                (World {[ RAW_FILE := lit "H" ++ lit "i" ++ lit "!" ]} [])
                (lookup_singleton_eq _ _)) as Hrun.
  destruct (main_idempotent 3 4 _ _ Hrun) as (w2 & Hrun2 & Hfiles).
  eexists _, w2. split_and!; [exact Hrun | exact Hrun2 | exact Hfiles].
Defined.

(** ** Arguments that are not one character *)

Lemma shift_fn_not_char (s : segment) (ch : pystr) (k : Z) :
  length ch ≠ 1%nat → shift_fn s ch k = Raise TypeError.
Proof. destruct ch as [|x [|y ch]]; [by destruct s | done | by destruct s]. Qed.

Lemma encrypt_character_not_char (ch : pystr) (key1 key2 : Z) :
  length ch ≠ 1%nat →
  encrypt_character ch key1 key2 =
    if (str_le (lit "a") ch && str_le ch (lit "z"))
       || (str_le (lit "A") ch && str_le ch (lit "Z"))
    then Raise TypeError else Ok ch.
Proof.
  intros Hlen. unfold encrypt_character.
  pose proof (shift_fn_not_char LowerFirst ch (key1 * key2) Hlen) as H1.
  pose proof (shift_fn_not_char LowerSecond ch (- (key1 + key2)) Hlen) as H2.
  pose proof (shift_fn_not_char UpperFirst ch (- key1) Hlen) as H3.
  pose proof (shift_fn_not_char UpperSecond ch (key2 * key2) Hlen) as H4.
  cbn [shift_fn] in H1, H2, H3, H4. rewrite H1, H2, H3, H4.
  by repeat case_match.
Qed.

Lemma decrypt_character_not_char (ch : pystr) (key1 key2 : Z) :
  length ch ≠ 1%nat →
  decrypt_character ch key1 key2 =
    if (str_le (lit "a") ch && str_le ch (lit "z"))
       || (str_le (lit "A") ch && str_le ch (lit "Z"))
    then Raise TypeError else Ok ch.
Proof.
  intros Hlen. unfold decrypt_character.
  pose proof (shift_fn_not_char LowerFirst ch (- (key1 * key2)) Hlen) as H1.
  pose proof (shift_fn_not_char LowerSecond ch (key1 + key2) Hlen) as H2.
  pose proof (shift_fn_not_char UpperFirst ch key1 Hlen) as H3.
  pose proof (shift_fn_not_char UpperSecond ch (- (key2 * key2)) Hlen) as H4.
  cbn [shift_fn] in H1, H2, H3, H4. rewrite H1, H2, H3, H4.
  by repeat case_match.
Qed.

(** X4. Errors of the per-character functions: on any string and any keys,
    [encrypt_character] and [decrypt_character] can only raise [TypeError], and
    only when the argument is not exactly one character long ([chr] never
    fails); a result they return has the length of the argument. *)
Theorem character_errors (ch : pystr) (key1 key2 : Z) :
  (∀ e, encrypt_character ch key1 key2 = Raise e → e = TypeError ∧ length ch ≠ 1%nat) ∧
  (∀ r, encrypt_character ch key1 key2 = Ok r → length r = length ch) ∧
  (∀ e, decrypt_character ch key1 key2 = Raise e → e = TypeError ∧ length ch ≠ 1%nat) ∧
  (∀ r, decrypt_character ch key1 key2 = Ok r → length r = length ch).
Proof.
  destruct (decide (length ch = 1%nat)) as [Hone|Hlen].
  - destruct ch as [|c [|y ch]]; try discriminate Hone.
    rewrite encrypt_character_cp, decrypt_character_cp.
    split_and!; intros ? [= <-]; done.
  - rewrite encrypt_character_not_char, decrypt_character_not_char by done.
    case_match; split_and!; intros ? [= <-]; done.
Qed.

(** X5. A string that is not one character long is never transformed: the
    dispatch functions raise [TypeError] when it compares inside ['a'..'z'] or
    ['A'..'Z'] as a string (for instance ["ab"]) and otherwise return it
    unchanged (for instance ["zz"]); in particular the empty string is
    returned as it is. *)
Theorem not_a_character (ch : pystr) (key1 key2 : Z) :
  length ch ≠ 1%nat →
  let in_range :=
    (str_le (lit "a") ch && str_le ch (lit "z"))
    || (str_le (lit "A") ch && str_le ch (lit "Z")) in
  encrypt_character ch key1 key2 = (if in_range then Raise TypeError else Ok ch) ∧
  decrypt_character ch key1 key2 = (if in_range then Raise TypeError else Ok ch) ∧
  (ch = [] → in_range = false).
Proof.
  intros Hlen in_range. split_and!.
  - by apply encrypt_character_not_char.
  - by apply decrypt_character_not_char.
  - by intros ->.
Qed.

Lemma not_a_character_witness :
  encrypt_character (lit "a" ++ lit "b") 3 4 = Raise TypeError ∧
  encrypt_character (lit "z" ++ lit "z") 3 4 = Ok (lit "z" ++ lit "z") ∧
  decrypt_character [] 3 4 = Ok [].
Proof.
  split_and!.
  - apply (not_a_character (lit "a" ++ lit "b") 3 4). simpl. lia.
  - apply (not_a_character (lit "z" ++ lit "z") 3 4). simpl. lia.
  - apply (not_a_character [] 3 4). simpl. lia.
Defined.

(** ** Algebra of the rotations *)

Lemma mod13_shift (a b q : Z) : a = b + q * 13 → a mod 13 = b mod 13.
Proof. intros ->. by rewrite Z.mod_add. Qed.

Lemma rot_congr (o c k k' : Z) : k mod 13 = k' mod 13 → rot o c k = rot o c k'.
Proof. unfold rot. by intros ->. Qed.

Lemma rot_add (o c k1 k2 : Z) : rot o (rot o c k1) k2 = rot o c (k1 + k2).
Proof.
  unfold rot. f_equal.
  apply (mod13_shift _ _
    ((k1 + k2) / 13 - k1 / 13 - k2 / 13 - (c - o + k1 mod 13) / 13)).
  pose proof (Z.div_mod k1 13). pose proof (Z.div_mod k2 13).
  pose proof (Z.div_mod (k1 + k2) 13).
  pose proof (Z.div_mod (c - o + k1 mod 13) 13). lia.
Qed.

Lemma rot_fixed (o c k : Z) : o ≤ c < o + 13 → rot o c k = c ↔ k mod 13 = 0.
Proof.
  intros Hc. unfold rot. pose proof (Z.mod_pos_bound k 13).
  remember (k mod 13) as m eqn:Em. clear Em.
  destruct (Z_lt_dec (c - o + m) 13) as [Hlt|Hge].
  - rewrite Z.mod_small by lia. lia.
  - rewrite (mod13_shift (c - o + m) (c - o + m - 13) 1) by lia.
    rewrite Z.mod_small by lia. lia.
Qed.

Lemma opp_mod_zero (a : Z) : (- a) mod 13 = 0 ↔ a mod 13 = 0.
Proof.
  split; intros H.
  - rewrite <- (Z.opp_involutive a). by rewrite (opp_mod_congr (- a) 0).
  - by rewrite (opp_mod_congr a 0).
Qed.

Lemma enc_amount_congr (s : segment) (key1 key2 key1' key2' : Z) :
  key1 mod 13 = key1' mod 13 → key2 mod 13 = key2' mod 13 →
  enc_amount s key1 key2 mod 13 = enc_amount s key1' key2' mod 13.
Proof.
  intros H1 H2. destruct s; simpl.
  - rewrite (Z.mul_mod key1 key2), (Z.mul_mod key1' key2') by lia. congruence.
  - apply opp_mod_congr.
    rewrite (Z.add_mod key1 key2), (Z.add_mod key1' key2') by lia. congruence.
  - by apply opp_mod_congr.
  - rewrite (Z.mul_mod key2 key2), (Z.mul_mod key2' key2') by lia. congruence.
Qed.

Lemma transform_encode_congr (c key1 key2 key1' key2' : Z) :
  key1 mod 13 = key1' mod 13 → key2 mod 13 = key2' mod 13 →
  transform_cp encode_table key1 key2 c = transform_cp encode_table key1' key2' c.
Proof.
  intros H1 H2. destruct (segment_cases c) as [[s Hs] | Hc].
  - rewrite !(transform_encode_segment s) by done.
    by apply rot_congr, enc_amount_congr.
  - by rewrite !transform_encode_passthrough.
Qed.

Lemma transform_decode_congr (c key1 key2 key1' key2' : Z) :
  key1 mod 13 = key1' mod 13 → key2 mod 13 = key2' mod 13 →
  transform_cp decode_table key1 key2 c = transform_cp decode_table key1' key2' c.
Proof.
  intros H1 H2. destruct (segment_cases c) as [[s Hs] | Hc].
  - rewrite !(transform_decode_segment s) by done.
    by apply rot_congr, opp_mod_congr, enc_amount_congr.
  - by rewrite !transform_decode_passthrough.
Qed.

Lemma transform_encode_commute (c key1 key2 key1' key2' : Z) :
  transform_cp encode_table key1' key2' (transform_cp encode_table key1 key2 c) =
  transform_cp encode_table key1 key2 (transform_cp encode_table key1' key2' c).
Proof.
  destruct (segment_cases c) as [[s Hs] | Hc].
  - rewrite !(transform_encode_segment s c) by done.
    rewrite !(transform_encode_segment s) by apply rot_in_segment.
    rewrite !rot_add. f_equal. lia.
  - by rewrite !(transform_encode_passthrough c) by done.
Qed.

Lemma map_transform_id (f : Z → Z) (text : pystr) :
  (∀ c, f c = c) → map f text = text.
Proof.
  intros Hf. induction text as [|c text IH]; [done|]. simpl. by rewrite Hf, IH.
Qed.

(** X6. Keys that do nothing: [encrypt_text] returns every text unchanged
    exactly when both keys are multiples of 13 (zero included). *)
Theorem identity_keys (key1 key2 : Z) :
  (∀ text, encrypt_text key1 key2 text = Ok text) ↔
  key1 mod 13 = 0 ∧ key2 mod 13 = 0.
Proof.
  split.
  - intros Hid.
    pose proof (Hid (lit "A")) as HA. pose proof (Hid (lit "n")) as Hn.
    rewrite encrypt_text_cp in HA, Hn. unfold lit in HA, Hn. simpl in HA, Hn.
    injection HA as HA. injection Hn as Hn.
    rewrite (transform_encode_segment UpperFirst) in HA
      by (unfold in_segment; simpl; cp_eval; lia).
    rewrite (transform_encode_segment LowerSecond) in Hn
      by (unfold in_segment; simpl; cp_eval; lia).
    apply rot_fixed in HA; [|simpl; cp_eval; lia].
    apply rot_fixed in Hn; [|simpl; cp_eval; lia].
    simpl in HA, Hn. rewrite opp_mod_zero in HA. rewrite opp_mod_zero in Hn.
    split; [done|].
    pose proof (Z.div_mod key1 13). pose proof (Z.div_mod key2 13).
    pose proof (Z.div_mod (key1 + key2) 13). pose proof (Z.mod_pos_bound key2 13).
    lia.
  - intros [H1 H2] text. rewrite encrypt_text_cp. f_equal.
    apply map_transform_id. intros c.
    destruct (segment_cases c) as [[s Hs] | Hc].
    + rewrite (transform_encode_segment s) by done.
      apply rot_fixed; [by apply in_segment_block|].
      rewrite (enc_amount_congr s key1 key2 0 0) by done. by destruct s.
    + by apply transform_encode_passthrough.
Qed.

(** X7. Only the residues of the keys modulo 13 matter: two key pairs that
    are congruent component by component modulo 13 encrypt every text alike
    and decrypt every text alike, so either pair decrypts what the other
    encrypted. *)
Theorem keys_modulo_13 (key1 key2 key1' key2' : Z) (text : pystr) :
  key1 mod 13 = key1' mod 13 →
  key2 mod 13 = key2' mod 13 →
  encrypt_text key1 key2 text = encrypt_text key1' key2' text ∧
  decrypt_text key1 key2 text = decrypt_text key1' key2' text ∧
  (enc ← encrypt_text key1 key2 text; decrypt_text key1' key2' enc) = Ok text.
Proof.
  intros H1 H2.
  assert (∀ t, decrypt_text key1 key2 t = decrypt_text key1' key2' t) as Hdec.
  { intros t. rewrite !decrypt_text_cp. f_equal.
    induction t as [|c t IH]; [done|]. simpl.
    by rewrite IH, (transform_decode_congr c key1 key2 key1' key2'). }
  split_and!.
  - rewrite !encrypt_text_cp. f_equal.
    induction text as [|c text IH]; [done|]. simpl.
    by rewrite IH, (transform_encode_congr c key1 key2 key1' key2').
  - apply Hdec.
  - rewrite encrypt_text_cp. simpl. rewrite <- Hdec. apply decrypt_text_encrypted.
Qed.

Lemma keys_modulo_13_witness :
  3 mod 13 = 16 mod 13 ∧ 4 mod 13 = (-9) mod 13 ∧
  encrypt_text 3 4 (lit "H" ++ lit "i" ++ lit "!")
    = encrypt_text 16 (-9) (lit "H" ++ lit "i" ++ lit "!") ∧
  (enc ← encrypt_text 3 4 (lit "H" ++ lit "i" ++ lit "!"); decrypt_text 16 (-9) enc)
    = Ok (lit "H" ++ lit "i" ++ lit "!").
Proof.
  do 2 (split; [reflexivity|]).
  destruct (keys_modulo_13 3 4 16 (-9) (lit "H" ++ lit "i" ++ lit "!"))
    as (Henc & _ & Hcross); [reflexivity | reflexivity | by split].
Defined.

(** X8. Round trip on whole texts, both ways: decrypting the encryption of a
    text, and encrypting the decryption of a text, with the same keys give the
    text back; hence two different texts never have the same encryption. *)
Theorem text_round_trip (key1 key2 : Z) (text : pystr) :
  (enc ← encrypt_text key1 key2 text; decrypt_text key1 key2 enc) = Ok text ∧
  (dec ← decrypt_text key1 key2 text; encrypt_text key1 key2 dec) = Ok text ∧
  (∀ text', encrypt_text key1 key2 text = encrypt_text key1 key2 text' → text = text').
Proof.
  split_and!.
  - apply decrypt_encrypt_text.
  - rewrite decrypt_text_cp. simpl. rewrite encrypt_text_cp. f_equal.
    induction text as [|c text IH]; [done|]. simpl.
    by rewrite IH, transform_encode_decode.
  - intros text' Heq.
    pose proof (decrypt_text_encrypted key1 key2 text) as H.
    pose proof (decrypt_text_encrypted key1 key2 text') as H'.
    rewrite !encrypt_text_cp in Heq. injection Heq as Heq.
    rewrite Heq in H. rewrite H in H'. by injection H'.
Qed.

(** X9. The text transforms work piece by piece: the encryption (decryption)
    of a concatenation is the concatenation of the encryptions (decryptions),
    and the empty text gives the empty text. *)
Theorem text_concat (key1 key2 : Z) (a b : pystr) :
  encrypt_text key1 key2 (a ++ b) =
    (x ← encrypt_text key1 key2 a; y ← encrypt_text key1 key2 b; mret (x ++ y)) ∧
  decrypt_text key1 key2 (a ++ b) =
    (x ← decrypt_text key1 key2 a; y ← decrypt_text key1 key2 b; mret (x ++ y)) ∧
  encrypt_text key1 key2 [] = Ok [] ∧
  decrypt_text key1 key2 [] = Ok [].
Proof.
  rewrite !encrypt_text_cp, !decrypt_text_cp. simpl.
  rewrite !map_app. done.
Qed.

(** X10. Shifts add up: for each of the four shift functions, any character
    [c] (of the segment or not) and any amounts, shifting by [k1] and then by
    [k2] is shifting once by [k1 + k2]. *)
Theorem shift_additive (s : segment) (c k1 k2 : Z) :
  (e ← shift_fn s [c] k1; shift_fn s e k2) = shift_fn s [c] (k1 + k2).
Proof.
  rewrite !shift_fn_cp. simpl. rewrite shift_fn_cp. by rewrite rot_add.
Qed.

(** X11. Fixed points of a shift: a shift function returns its argument
    unchanged exactly when the character is a letter of the function's own
    segment and the amount is a multiple of 13. A character outside the
    segment is never returned as it is, not even for the amount 0: it is
    mapped to a letter of the segment. *)
Theorem shift_fixed (s : segment) (c k : Z) :
  (shift_fn s [c] k = Ok [c] ↔ in_segment s c ∧ k mod 13 = 0) ∧
  (∃ e, shift_fn s [c] k = Ok [e] ∧ in_segment s e).
Proof.
  rewrite shift_fn_cp. split.
  - split.
    + intros [= H]. assert (in_segment s c) as Hs.
      { rewrite <- H. apply rot_in_segment. }
      split; [done|]. apply (rot_fixed (cp (origin s)) c k); [|done].
      by apply in_segment_block.
    + intros [Hs Hk]. do 2 f_equal. apply rot_fixed; [|done].
      by apply in_segment_block.
  - eexists. split; [done|]. apply rot_in_segment.
Qed.

(** X12. Encryptions under different key pairs commute: encrypting a text
    with one pair and then with another gives the same text as encrypting in
    the opposite order, and the two layers can be removed in the order they
    were applied as well as in the reverse order. *)
Theorem encrypt_commutes (key1 key2 key1' key2' : Z) (text : pystr) :
  (x ← encrypt_text key1 key2 text; encrypt_text key1' key2' x) =
  (x ← encrypt_text key1' key2' text; encrypt_text key1 key2 x) ∧
  (x ← encrypt_text key1 key2 text; y ← encrypt_text key1' key2' x;
   z ← decrypt_text key1 key2 y; decrypt_text key1' key2' z) = Ok text.
Proof.
  assert (map (transform_cp encode_table key1' key2')
            (map (transform_cp encode_table key1 key2) text) =
          map (transform_cp encode_table key1 key2)
            (map (transform_cp encode_table key1' key2') text)) as Hswap.
  { induction text as [|c text IH]; [done|]. simpl.
    by rewrite IH, transform_encode_commute. }
  rewrite !encrypt_text_cp. simpl. rewrite !encrypt_text_cp. simpl. split.
  - by rewrite Hswap.
  - rewrite Hswap, decrypt_text_encrypted. simpl. apply decrypt_text_encrypted.
Qed.

(** ** [verify_files] on its own *)



